(** * PromiseExtension: Promise.some, Promise.none, Promise.try, always

    A shallow embedding of [src/PromiseExtension.js].  The host promise
    primitive is not part of the repository; the fragment of it that the
    four combinators rely on (at-most-once settlement, [resolve] adopting a
    promise, [then] running exactly one of its two handlers,
    [Promise.resolve] returning a promise argument unchanged, reactions on
    a promise that is already settled being queued when they are attached)
    is written out here as plain functions over explicit state. *)

From stdpp Require Import base list strings.
From Stdlib Require Import ZArith.

Open Scope string_scope.
Open Scope list_scope.
Open Scope nat_scope.
Set Warnings "-register-all".

(** ** JavaScript values *)

(** Numbers as far as the code inspects them: falsiness. *)
Inductive number :=
| NFinite (z : Z)
| NInfinity
| NNegInfinity
| NNaN.

(** Functions and promises are references (an identifier into the host's
    store); arrays are kept by content.  [VThenable] is an object
    ([callable = false]) or a function ([callable = true]) that is not a
    native promise and carries a callable [then], and nothing else the code
    looks at; [VFunction] is a function without a [then]. *)
Inductive value :=
| VUndefined
| VNull
| VBool (b : bool)
| VNumber (n : number)
| VString (s : string)
| VArray (l : list value)
| VFunction (f : nat)
| VPromise (p : nat)
| VThenable (t : nat) (callable : bool).

(** The [typeof] operator. *)
Definition typeof (v : value) : string :=
  match v with
  | VUndefined => "undefined"
  | VNull => "object"
  | VBool _ => "boolean"
  | VNumber _ => "number"
  | VString _ => "string"
  | VArray _ => "object"
  | VFunction _ => "function"
  | VPromise _ => "object"
  | VThenable _ callable => if callable then "function" else "object"
  end.

(** [!v] is [negb (truthy v)]. *)
Definition truthy (v : value) : bool :=
  match v with
  | VUndefined | VNull => false
  | VBool b => b
  | VNumber (NFinite z) => negb (z =? 0)%Z
  | VNumber NNaN => false
  | VNumber _ => true
  | VString s => negb (String.eqb s "")
  | VArray _ | VFunction _ | VPromise _ | VThenable _ _ => true
  end.

(** [x instanceof Promise] *)
Definition instanceof_Promise (v : value) : bool :=
  match v with VPromise _ => true | _ => false end.

(** What [resolve] adopts instead of taking it as the value: anything with
    a callable [then]. *)
Definition thenable (v : value) : bool :=
  match v with VPromise _ | VThenable _ _ => true | _ => false end.

(** How an input promise settles. *)
Inductive settlement :=
| Fulfils (v : value)
| Rejects (r : value).

(** One entry of the chronological settlement order: promise [p] settles. *)
Abbreviation event := (nat * settlement)%type.

(** ** The host promise primitive, as far as the combinators use it *)

(** What a caller sees of a promise: still pending, settled, or locked to
    a thenable whose fate it will share. *)
Inductive view :=
| IsPending
| IsFulfilled (v : value)
| IsRejected (r : value)
| IsFollowing (t : value).

(** The two settling functions handed to an executor, on the view of the
    promise they belong to.  Both do nothing once the promise is settled. *)
Definition view_resolve (s : view) (v : value) : view :=
  match s with
  | IsPending => if thenable v then IsFollowing v else IsFulfilled v
  | _ => s
  end.

Definition view_reject (s : view) (r : value) : view :=
  match s with
  | IsPending => IsRejected r
  | _ => s
  end.

(** How a call of a JavaScript function ends. *)
Inductive completion :=
| Normal (v : value)
| Throw (e : value).

(** A callable, by its behaviour on its one argument. *)
Definition callback : Type := value -> completion.

(** Outcome of [p.then(onFulfilled, onRejected)] once [p] is in state
    [this]: the arguments the handlers were called with, oldest first, and
    the promise that [then] returned. *)
Record reaction := mkReaction {
  invoked : list value;
  derived : view
}.

Definition settle_with (c : completion) : view :=
  match c with
  | Normal v => view_resolve IsPending v
  | Throw e => IsRejected e
  end.

(** [None] as a handler is anything that is not callable: the settlement
    passes through. *)
Definition then_ (this : view) (onFulfilled onRejected : option callback)
  : reaction :=
  match this with
  | IsFulfilled v =>
      match onFulfilled with
      | Some f => mkReaction [v] (settle_with (f v))
      | None => mkReaction [] (IsFulfilled v)
      end
  | IsRejected r =>
      match onRejected with
      | Some f => mkReaction [r] (settle_with (f r))
      | None => mkReaction [] (IsRejected r)
      end
  | IsPending | IsFollowing _ => mkReaction [] IsPending
  end.

(** ** Promise.some *)

Module Some_.

(** What the returned promise was settled with: an ordinary value, or the
    closure's [reasons] array itself ([reject(reasons)] hands over the array
    object, not a copy). *)
Inductive payload :=
| ByValue (v : value)
| ByReasons.

Inductive pstate :=
| Pending
| Fulfilled (x : payload)
| Rejected (x : payload)
| Following (t : value).

(** The closure of one call: the three [var]s and the returned promise. *)
Record state := mkState {
  result : pstate;
  rejectionlessPromises : list nat;
  reasons : list value;
  rejectionCount : nat
}.

Definition init : state := mkState Pending [] [] 0.

Definition set_result (st : state) (r : pstate) : state :=
  mkState r (rejectionlessPromises st) (reasons st) (rejectionCount st).

(** The executor's [resolve]: no effect once settled; a thenable argument
    is adopted rather than used as the value. *)
Definition resolve (st : state) (x : payload) : state :=
  match result st with
  | Pending =>
      match x with
      | ByValue v =>
          if thenable v then set_result st (Following v)
          else set_result st (Fulfilled x)
      | ByReasons => set_result st (Fulfilled x)
      end
  | _ => st
  end.

(** The executor's [reject]: no effect once settled. *)
Definition reject (st : state) (x : payload) : state :=
  match result st with
  | Pending => set_result st (Rejected x)
  | _ => st
  end.

Definition only_promises_msg : string :=
  "Only Promises can be used with Promise.some()".

(** [rejectionlessPromises.push(promises[i].then(resolve, rejectLastFailure))]:
    the pair of handlers is attached to promise [p]; what is recorded is the
    promise the handlers hang on. *)
Definition push_then (st : state) (p : nat) : state :=
  mkState (result st) (rejectionlessPromises st ++ [p]) (reasons st)
          (rejectionCount st).

(** [for (var i = promises.length; i--;) { ... }], [i] being the value
    before the decrement. *)
Fixpoint loop (promises : list value) (i : nat) (st : state) : state :=
  match i with
  | 0 => st
  | S j =>
      let st' :=
        match promises !! j with
        | Some (VPromise p) => push_then st p
        | _ => reject st (ByValue (VString only_promises_msg))
        end in
      loop promises j st'
  end.

(** The body of [new Promise(function(resolve, reject) { ... })].
    [None] is an absent ([undefined]) argument.  The value of
    [Promise.race(rejectionlessPromises)] is dropped by the source. *)
Definition executor (promises : option (list value)) (st : state) : state :=
  match promises with
  | None => resolve st (ByValue (VArray []))
  | Some l =>
      if length l =? 0 then resolve st (ByValue (VArray []))
      else loop l (length l) st
  end.

(** State in which [Promise.some(promises)] returns. *)
Definition Promise_some (promises : option (list value)) : state :=
  executor promises init.

Definition promises_length (promises : option (list value)) : nat :=
  match promises with None => 0 | Some l => length l end.

(** [function rejectLastFailure(reason)], [n] being [promises.length]. *)
Definition rejectLastFailure (n : nat) (st : state) (reason : value) : state :=
  let st1 := mkState (result st) (rejectionlessPromises st)
                     (reasons st ++ [reason]) (S (rejectionCount st)) in
  if rejectionCount st1 =? n then reject st1 ByReasons else st1.

(** One handler pair [then(resolve, rejectLastFailure)] reacting. *)
Definition react (n : nat) (st : state) (o : settlement) : state :=
  match o with
  | Fulfils v => resolve st (ByValue v)
  | Rejects r => rejectLastFailure n st r
  end.

(** Promise [p] settles: every handler pair attached to it runs, in the
    order of attachment. *)
Definition fire (n : nat) (st : state) (e : event) : state :=
  fold_left (fun s q => if q =? e.1 then react n s e.2 else s)
            (rejectionlessPromises st) st.

(** How promise [p] had settled when the call was made, [past] being the
    settlements before the call, oldest first; [None] when it was still
    pending. *)
Fixpoint settled_at_call (past : list event) (p : nat) : option settlement :=
  match past with
  | [] => None
  | e :: past' => if e.1 =? p then Some e.2 else settled_at_call past' p
  end.

(** [then] on a promise that is already settled queues the reaction at
    once; the queued reactions run when the call has returned, in the order
    in which they were attached, ahead of the reactions to any later
    settlement. *)
Definition drain (n : nat) (past : list event) (st : state) : state :=
  fold_left (fun s q => match settled_at_call past q with
                        | Some o => react n s o
                        | None => s
                        end)
            (rejectionlessPromises st) st.

(** The call, made after the settlements [past], followed by the
    settlements [sched] of promises still pending at the call; both oldest
    first. *)
Definition run (past : list event) (promises : option (list value))
    (sched : list event) : state :=
  fold_left (fire (promises_length promises)) sched
            (drain (promises_length promises) past (Promise_some promises)).

Definition deref (st : state) (x : payload) : value :=
  match x with
  | ByValue v => v
  | ByReasons => VArray (reasons st)
  end.

Definition observe (st : state) : view :=
  match result st with
  | Pending => IsPending
  | Fulfilled x => IsFulfilled (deref st x)
  | Rejected x => IsRejected (deref st x)
  | Following t => IsFollowing t
  end.

End Some_.

Import Some_.

(** ** Promise.none *)

(** [Promise.some(promises).then(reject, resolve)] inside the executor of
    the promise that [Promise.none] returns: [some_view] is the state of the
    inner promise, the result the state of the outer one. *)
Definition none_of (some_view : view) : view :=
  match some_view with
  | IsFulfilled v => view_reject IsPending v
  | IsRejected r => view_resolve IsPending r
  | IsPending | IsFollowing _ => IsPending
  end.

Definition Promise_none (past : list event) (promises : option (list value))
    (sched : list event) : view :=
  none_of (observe (run past promises sched)).

(** ** Promise.prototype.always *)

Definition always (this : view) (fn : option callback) : reaction :=
  then_ this fn fn.

(** ** Promise.try *)

Module Try.

(** The expression whose evaluation raised the exception. *)
Inductive raised_by :=
| TimePop
| NewPromise.

Inductive error :=
| TypeError (by_ : raised_by).

Inductive outcome (A : Type) :=
| Returns (a : A)
| Throws (e : error).
Arguments Returns {A} a.
Arguments Throws {A} e.

(** A promise of the store, by how it was made; [Adopting t] is pending
    and will take the outcome of the thenable [t]. *)
Inductive cell :=
| Settled (o : settlement)
| Adopting (t : value)
| TimerReject (ms : value)
| RaceOf (members : list value)
| CatchOf (source : nat).

(** The variables of one call, the store of promises, and the number of
    calls made to [fn] so far (no statement of the source calls [fn]). *)
Record env := mkEnv {
  attemptNum : nat;
  maxAttempts : nat;
  times : list value;
  time : value;
  reasons : list value;
  timeToWait : value;
  heap : list cell;
  invocations : nat
}.

Definition alloc (e : env) (c : cell) : value * env :=
  (VPromise (length (heap e)),
   mkEnv (attemptNum e) (maxAttempts e) (times e) (time e) (reasons e)
         (timeToWait e) (heap e ++ [c]) (invocations e)).

(** [Promise.resolve(v)]: a promise is handed back as it is; another
    thenable gets a fresh promise that adopts it; anything else is wrapped
    in a fresh fulfilled promise. *)
Definition Promise_resolve (e : env) (v : value) : value * env :=
  match v with
  | VPromise p => (VPromise p, e)
  | VThenable _ _ => alloc e (Adopting v)
  | _ => alloc e (Settled (Fulfils v))
  end.

Definition Promise_reject (e : env) (r : value) : value * env :=
  alloc e (Settled (Rejects r)).

(** [[].concat(time)] *)
Definition concat_time (time : value) : list value :=
  match time with
  | VArray l => l
  | _ => [time]
  end.

(** [timeToWait = time.pop()]; [time] is the caller's argument, not the
    copy [times].  Only an array has a [pop]. *)
Definition time_pop (e : env) : outcome env :=
  match time e with
  | VArray l =>
      Returns (mkEnv (attemptNum e) (maxAttempts e) (times e)
                     (VArray (removelast l)) (reasons e)
                     (List.last l VUndefined) (heap e) (invocations e))
  | _ => Throws (TypeError TimePop)
  end.

Section Host.

(** The host's global [isFinite], taken as it comes. *)
Variable isFinite : value -> bool.

(** [function timeoutPromiseFactory()]; [new Promise()] without an executor
    raises. *)
Definition timeoutPromiseFactory (e : env) : outcome (value * env) :=
  match (if negb (length (times e) =? 0) then time_pop e else Returns e) with
  | Throws err => Throws err
  | Returns e1 =>
      if String.eqb (typeof (timeToWait e1)) "Number"
         && negb (truthy (timeToWait e1))
         && isFinite (timeToWait e1)
      then Returns (alloc e1 (TimerReject (timeToWait e1)))
      else Throws (TypeError NewPromise)
  end.

(** [function attempt()]: the race and the [catch] on it are set up; the
    handler of the [catch] is [attempt_catch] below. *)
Definition attempt (fn : value) (e : env) : outcome (value * env) :=
  match timeoutPromiseFactory e with
  | Throws err => Throws err
  | Returns (tp, e1) =>
      let '(race, e2) := alloc e1 (RaceOf [fn; tp]) in
      match race with
      | VPromise r => Returns (alloc e2 (CatchOf r))
      | _ => Returns (race, e2)
      end
  end.

(** [function(reason) { reasons.push(reason); if (attemptNum++ < maxAttempts)
    { attempt(); } else { return Promise.reject(reasons); } }] *)
Definition attempt_catch (fn : value) (e : env) (reason : value)
  : outcome (value * env) :=
  let e1 := mkEnv (S (attemptNum e)) (maxAttempts e) (times e) (time e)
                  (reasons e ++ [reason]) (timeToWait e) (heap e)
                  (invocations e) in
  if attemptNum e <? maxAttempts e then
    match attempt fn e1 with
    | Throws err => Throws err
    | Returns (_, e2) => Returns (VUndefined, e2)
    end
  else Returns (Promise_reject e1 (VArray (reasons e1))).

(** [Promise.try = function(fn, time, attempts)], called with the store
    [h]; [attempts] is [None] when absent. *)
Definition Promise_try (h : list cell) (fn time : value) (attempts : option nat)
  : outcome (value * env) :=
  let e := mkEnv 0 (default 0 attempts) (concat_time time) time []
                 VUndefined h 0 in
  if negb (String.eqb (typeof fn) "Function") then
    Returns (Promise_resolve e fn)
  else attempt fn e.

End Host.

(** State of promise [v] in the store. *)
Definition state_of (e : env) (v : value) : option cell :=
  match v with
  | VPromise p => heap e !! p
  | _ => None
  end.

End Try.

(** ** Bookkeeping used in the statements *)

(** Number of handler pairs attached to promise [q]. *)
Fixpoint handlers_on (q : nat) (regs : list nat) : nat :=
  match regs with
  | [] => 0
  | x :: regs' => (if x =? q then 1 else 0) + handlers_on q regs'
  end.

(** Number of handler runs caused by the settlements of [qs]. *)
Fixpoint total (regs : list nat) (qs : list nat) : nat :=
  match qs with
  | [] => 0
  | q :: qs' => handlers_on q regs + total regs qs'
  end.

Definition carried (o : settlement) : value :=
  match o with Fulfils v => v | Rejects r => r end.

(** The reactions queued at the call: one for every handler pair attached
    to a promise that was already settled, in attachment order. *)
Definition queued (past : list event) (regs : list nat) : list event :=
  omap (fun q => (fun o => (q, o)) <$> settled_at_call past q) regs.

(** The reactions to the later settlements: one for every handler pair
    attached to the promise that settles. *)
Definition later (regs : list nat) (sched : list event) : list event :=
  flat_map (fun e => replicate (handlers_on e.1 regs) e) sched.

(** All reactions of a call, in the order in which they run. *)
Definition reactions (past : list event) (regs : list nat)
    (sched : list event) : list event :=
  queued past regs ++ later regs sched.

(** Handler pairs reacting one after the other. *)
Definition react_all (n : nat) (js : list event) (st : state) : state :=
  fold_left (fun s j => react n s j.2) js st.

(** The order in which [Promise.some] gets to see the settlements: those
    before the call through the queued reactions, then the later ones as
    they happen. *)
Definition seen_in_order (past : list event) (ps : list nat)
    (sched : list event) : list event :=
  queued past (reverse ps) ++ sched.

(** [Promise.some] rejects with its own message or with [reasons], never
    with anything else. *)
Definition rejection_ok (st : state) : Prop :=
  match result st with
  | Rejected (ByValue v) => v = VString only_promises_msg
  | _ => True
  end.

(** The promises among the elements of an input array, in input order. *)
Definition input_pids (l : list value) : list nat :=
  omap (fun v => match v with VPromise p => Some p | _ => None end) l.

(** What holds of the closure of [Promise.some] at every moment, [n] being
    [promises.length]: [reasons] and [rejectionCount] move together, the
    promise is rejected with [reasons] only once the counter has reached
    [n], and it is never fulfilled with [reasons]. *)
Definition run_inv (n : nat) (st : state) : Prop :=
  length (reasons st) = rejectionCount st ∧
  (result st = Rejected ByReasons → n ≤ rejectionCount st) ∧
  result st ≠ Fulfilled ByReasons.

(** * Properties *)

(** ** The code on concrete inputs *)

(** All pending at the call; B is rejected first, then C fulfils, then A:
    the result is C's value. *)
Example some_B_C_A :
  observe (run [] (Some [VPromise 0; VPromise 1; VPromise 2])
               [(1, Rejects (VString "B")); (2, Fulfils (VString "C"));
                (0, Fulfils (VString "A"))])
  = IsFulfilled (VString "C").
Proof. reflexivity. Qed.

(** Both fulfilled before the call, the first element first: the reaction
    on the last element runs first. *)
Example some_both_fulfilled_before :
  observe (run [(0, Fulfils (VString "A")); (1, Fulfils (VString "C"))]
               (Some [VPromise 0; VPromise 1]) [])
  = IsFulfilled (VString "C").
Proof. reflexivity. Qed.

(** A promise rejected before the call, one rejected after it. *)
Example some_rejected_before_and_after :
  observe (run [(1, Rejects (VString "old"))]
               (Some [VPromise 0; VPromise 1]) [(0, Rejects (VString "new"))])
  = IsRejected (VArray [VString "old"; VString "new"]).
Proof. reflexivity. Qed.

(** The same promise twice in the input: both handler pairs run. *)
Example some_same_promise_twice :
  observe (run [] (Some [VPromise 5; VPromise 5]) [(5, Rejects (VString "r"))])
  = IsRejected (VArray [VString "r"; VString "r"]).
Proof. reflexivity. Qed.

(** [P3, P5, P3] with P5 and P3 rejected before the call: the reasons come
    in attachment order. *)
Example some_repeated_rejected_before :
  observe (run [(5, Rejects (VString "a")); (3, Rejects (VString "b"))]
               (Some [VPromise 3; VPromise 5; VPromise 3]) [])
  = IsRejected (VArray [VString "b"; VString "a"; VString "b"]).
Proof. reflexivity. Qed.

(** One rejection out of two promises leaves the result pending. *)
Example some_one_of_two_rejected :
  observe (run [] (Some [VPromise 0; VPromise 1]) [(1, Rejects VNull)])
  = IsPending.
Proof. reflexivity. Qed.

(** A fulfilled promise next to a non-promise does not rescue the call. *)
Example some_number_in_input :
  observe (run [] (Some [VPromise 0; VNumber (NFinite 3)])
               [(0, Fulfils (VString "ok"))])
  = IsRejected (VString only_promises_msg).
Proof. reflexivity. Qed.

(** A thenable that is not a native promise is turned away as well. *)
Example some_thenable_in_input :
  observe (Promise_some (Some [VPromise 0; VThenable 1 false]))
  = IsRejected (VString only_promises_msg).
Proof. reflexivity. Qed.

Example none_all_rejected :
  Promise_none [] (Some [VPromise 0; VPromise 1])
               [(1, Rejects (VString "x")); (0, Rejects (VString "y"))]
  = IsFulfilled (VArray [VString "x"; VString "y"]).
Proof. reflexivity. Qed.

Example none_one_fulfilled :
  Promise_none [] (Some [VPromise 0; VPromise 1])
               [(1, Rejects (VString "x")); (0, Fulfils (VString "v"))]
  = IsRejected (VString "v").
Proof. reflexivity. Qed.

Example always_on_rejected_throwing :
  always (IsRejected (VString "boom")) (Some (fun x => Throw x))
  = mkReaction [VString "boom"] (IsRejected (VString "boom")).
Proof. reflexivity. Qed.

Example always_on_rejected_returning :
  always (IsRejected (VString "boom")) (Some (fun _ => Normal VUndefined))
  = mkReaction [VString "boom"] (IsFulfilled VUndefined).
Proof. reflexivity. Qed.

Example always_returning_a_promise :
  always (IsFulfilled VNull) (Some (fun _ => Normal (VPromise 8)))
  = mkReaction [VNull] (IsFollowing (VPromise 8)).
Proof. reflexivity. Qed.

(** ** Settlement happens at most once *)

Section AtMostOnce.

Variable n : nat.

Lemma resolve_settled st x :
  result st ≠ Pending → resolve st x = st.
Proof. unfold resolve. by destruct (result st). Qed.

Lemma reject_settled st x :
  result st ≠ Pending → reject st x = st.
Proof. unfold reject. by destruct (result st). Qed.

Lemma resolve_fields st x :
  rejectionlessPromises (resolve st x) = rejectionlessPromises st ∧
  reasons (resolve st x) = reasons st ∧
  rejectionCount (resolve st x) = rejectionCount st.
Proof.
  unfold resolve. destruct (result st); try done.
  destruct x as [v|]; [by destruct (thenable v)|done].
Qed.

Lemma reject_fields st x :
  rejectionlessPromises (reject st x) = rejectionlessPromises st ∧
  reasons (reject st x) = reasons st ∧
  rejectionCount (reject st x) = rejectionCount st.
Proof. unfold reject. by destruct (result st). Qed.

Lemma rejectLastFailure_reasons st r :
  reasons (rejectLastFailure n st r) = reasons st ++ [r].
Proof.
  unfold rejectLastFailure, reject. cbn [rejectionCount result].
  destruct (S (rejectionCount st) =? n); [|done].
  by destruct (result st).
Qed.

Lemma rejectLastFailure_count st r :
  rejectionCount (rejectLastFailure n st r) = S (rejectionCount st).
Proof.
  unfold rejectLastFailure, reject. cbn [rejectionCount result].
  destruct (S (rejectionCount st) =? n); [|done].
  by destruct (result st).
Qed.

Lemma rejectLastFailure_regs st r :
  rejectionlessPromises (rejectLastFailure n st r) = rejectionlessPromises st.
Proof.
  unfold rejectLastFailure, reject. cbn [rejectionCount result].
  destruct (S (rejectionCount st) =? n); [|done].
  by destruct (result st).
Qed.

Lemma rejectLastFailure_result st r :
  result st = Pending →
  result (rejectLastFailure n st r)
  = if S (rejectionCount st) =? n then Rejected ByReasons else Pending.
Proof.
  intros HP. unfold rejectLastFailure, reject.
  cbn [rejectionCount result].
  destruct (S (rejectionCount st) =? n); [|done].
  by rewrite HP.
Qed.

Lemma react_regs st o :
  rejectionlessPromises (react n st o) = rejectionlessPromises st.
Proof.
  destruct o as [v|r]; cbn [react].
  - apply resolve_fields.
  - apply rejectLastFailure_regs.
Qed.

Lemma react_result_settled st o :
  result st ≠ Pending → result (react n st o) = result st.
Proof.
  intros Hs. destruct o as [v|r]; cbn [react].
  - by rewrite resolve_settled.
  - unfold rejectLastFailure. cbn [rejectionCount].
    destruct (S (rejectionCount st) =? n); [|done].
    by rewrite reject_settled.
Qed.

Lemma react_count st o :
  rejectionCount st ≤ rejectionCount (react n st o) ≤ S (rejectionCount st).
Proof.
  destruct o as [v|r]; cbn [react].
  - destruct (resolve_fields st (ByValue v)) as (_ & _ & ->). lia.
  - rewrite rejectLastFailure_count. lia.
Qed.

Lemma react_all_result_settled js st :
  result st ≠ Pending → result (react_all n js st) = result st.
Proof.
  revert st. induction js as [|j js IH]; intros st Hs; [done|].
  cbn [react_all fold_left]. fold (react_all n js (react n st j.2)).
  rewrite IH; rewrite react_result_settled; done.
Qed.

Lemma react_all_regs js st :
  rejectionlessPromises (react_all n js st) = rejectionlessPromises st.
Proof.
  revert st. induction js as [|j js IH]; intros st; [done|].
  cbn [react_all fold_left]. fold (react_all n js (react n st j.2)).
  by rewrite IH, react_regs.
Qed.

Lemma react_all_app js1 js2 st :
  react_all n (js1 ++ js2) st = react_all n js2 (react_all n js1 st).
Proof. unfold react_all. by rewrite fold_left_app. Qed.

Lemma react_all_count js st :
  rejectionCount (react_all n js st) ≤ rejectionCount st + length js.
Proof.
  revert st. induction js as [|j js IH]; intros st; [cbn; lia|].
  cbn [react_all fold_left length]. fold (react_all n js (react n st j.2)).
  specialize (IH (react n st j.2)). pose proof (react_count st j.2). lia.
Qed.

End AtMostOnce.

(** ** A call as a sequence of reactions *)

Lemma drain_react_all n past st :
  drain n past st = react_all n (queued past (rejectionlessPromises st)) st.
Proof.
  unfold drain. generalize (rejectionlessPromises st) as regs.
  intros regs. revert st. induction regs as [|q regs IH]; intros st; [done|].
  cbn [fold_left]. unfold queued. cbn [omap list_omap].
  destruct (settled_at_call past q) as [o|]; cbn [fmap option_fmap option_map].
  - rewrite IH. reflexivity.
  - apply IH.
Qed.

Lemma fire_react_all n st e :
  fire n st e
  = react_all n (replicate (handlers_on e.1 (rejectionlessPromises st)) e) st.
Proof.
  unfold fire. generalize (rejectionlessPromises st) as regs.
  intros regs. revert st. induction regs as [|q regs IH]; intros st; [done|].
  cbn [fold_left handlers_on]. destruct (q =? e.1).
  - rewrite IH. reflexivity.
  - apply IH.
Qed.

Lemma fires_react_all n sched st :
  fold_left (fire n) sched st
  = react_all n (later (rejectionlessPromises st) sched) st.
Proof.
  revert st. induction sched as [|e sched IH]; intros st; [done|].
  cbn [fold_left]. rewrite IH, fire_react_all, react_all_regs.
  unfold later. cbn [flat_map]. by rewrite react_all_app.
Qed.

Lemma run_react_all past promises sched :
  run past promises sched
  = react_all (promises_length promises)
      (reactions past (rejectionlessPromises (Promise_some promises)) sched)
      (Promise_some promises).
Proof.
  unfold run, reactions.
  rewrite fires_react_all, drain_react_all, react_all_regs, react_all_app.
  done.
Qed.

Lemma later_app regs sched1 sched2 :
  later regs (sched1 ++ sched2) = later regs sched1 ++ later regs sched2.
Proof. unfold later. by rewrite flat_map_app. Qed.

Lemma run_app past promises sched1 sched2 :
  run past promises (sched1 ++ sched2)
  = react_all (promises_length promises)
      (later (rejectionlessPromises (Promise_some promises)) sched2)
      (run past promises sched1).
Proof.
  rewrite !run_react_all. unfold reactions.
  by rewrite later_app, app_assoc, react_all_app.
Qed.

(** ** The registration loop *)

Lemma loop_result_settled l i st :
  result st ≠ Pending → result (loop l i st) = result st.
Proof.
  revert st. induction i as [|j IH]; intros st Hs; [done|].
  simpl. destruct (l !! j) as [[]|]; rewrite IH; simpl;
    rewrite ?reject_settled; done.
Qed.

Lemma input_pids_snoc l x :
  input_pids (l ++ [x])
  = input_pids l ++ match x with VPromise p => [p] | _ => [] end.
Proof.
  unfold input_pids. rewrite omap_app. f_equal. by destruct x.
Qed.

Lemma input_pids_length l : length (input_pids l) ≤ length l.
Proof.
  induction l as [|x l IH]; [done|].
  unfold input_pids in *. destruct x; cbn; lia.
Qed.

Lemma input_pids_elem p l : p ∈ input_pids l ↔ VPromise p ∈ l.
Proof.
  unfold input_pids. rewrite list_elem_of_omap. split.
  - intros (v & Hv & Hp). by destruct v; simplify_eq.
  - intros Hp. by exists (VPromise p).
Qed.

Lemma input_pids_promises ps : input_pids (VPromise <$> ps) = ps.
Proof.
  induction ps as [|p ps IH]; [done|].
  unfold input_pids in *. cbn. by rewrite IH.
Qed.

Lemma forallb_promises ps : forallb instanceof_Promise (VPromise <$> ps) = true.
Proof. induction ps as [|p ps IH]; [done|]. cbn. exact IH. Qed.

Lemma loop_fields l i st :
  i ≤ length l →
  rejectionlessPromises (loop l i st)
  = rejectionlessPromises st ++ reverse (input_pids (take i l)) ∧
  reasons (loop l i st) = reasons st ∧
  rejectionCount (loop l i st) = rejectionCount st.
Proof.
  revert st. induction i as [|j IH]; intros st Hi.
  - cbn. by rewrite take_0, app_nil_r.
  - destruct (lookup_lt_is_Some_2 l j) as [x Hx]; [lia|].
    cbn [loop]. rewrite Hx. erewrite take_S_r by done.
    rewrite input_pids_snoc, reverse_app.
    assert (∀ st', rejectionlessPromises st' = rejectionlessPromises st →
                   reasons st' = reasons st →
                   rejectionCount st' = rejectionCount st →
                   rejectionlessPromises (loop l j st')
                   = rejectionlessPromises st ++ reverse (input_pids (take j l))
                   ∧ reasons (loop l j st') = reasons st
                   ∧ rejectionCount (loop l j st') = rejectionCount st)
      as Hsame.
    { intros st' E1 E2 E3. destruct (IH st') as (-> & -> & ->); [lia|].
      by rewrite E1, E2, E3. }
    destruct (reject_fields st (ByValue (VString only_promises_msg)))
      as (R1 & R2 & R3).
    destruct x; rewrite ?reverse_nil; cbn [app]; try by apply Hsame.
    destruct (IH (push_then st p)) as (-> & -> & ->); [lia|].
    unfold push_then. cbn [rejectionlessPromises reasons rejectionCount].
    by rewrite reverse_singleton, <- app_assoc.
Qed.

Lemma loop_result l i st :
  result st = Pending → i ≤ length l →
  result (loop l i st)
  = if forallb instanceof_Promise (take i l) then Pending
    else Rejected (ByValue (VString only_promises_msg)).
Proof.
  revert st. induction i as [|j IH]; intros st HP Hi.
  - by rewrite take_0.
  - destruct (lookup_lt_is_Some_2 l j) as [x Hx]; [lia|].
    cbn [loop]. rewrite Hx. erewrite take_S_r by done.
    rewrite forallb_app. cbn [forallb]. rewrite andb_true_r.
    destruct (instanceof_Promise x) eqn:Ex.
    + destruct x; try discriminate Ex. rewrite andb_true_r.
      apply IH; [done|lia].
    + rewrite andb_false_r.
      assert (result (reject st (ByValue (VString only_promises_msg)))
              = Rejected (ByValue (VString only_promises_msg))) as Hr
        by (unfold reject; by rewrite HP).
      destruct x; try discriminate Ex;
        (rewrite loop_result_settled; by rewrite Hr).
Qed.

Lemma Promise_some_nonempty (l : list value) :
  l ≠ [] →
  rejectionlessPromises (Promise_some (Some l)) = reverse (input_pids l) ∧
  reasons (Promise_some (Some l)) = [] ∧
  rejectionCount (Promise_some (Some l)) = 0 ∧
  result (Promise_some (Some l))
  = if forallb instanceof_Promise l then Pending
    else Rejected (ByValue (VString only_promises_msg)).
Proof.
  intros Hne. unfold Promise_some, executor.
  destruct (Nat.eqb_spec (length l) 0) as [H0|_];
    [by destruct l|].
  destruct (loop_fields l (length l) init) as (-> & -> & ->); [done|].
  rewrite take_ge by done. repeat split.
  rewrite loop_result by done. by rewrite take_ge by done.
Qed.

(** With nothing but promises in a non-empty input the call returns a
    pending promise with one handler pair per element, attached from the
    last element to the first. *)
Lemma Promise_some_promises ps :
  ps ≠ [] →
  rejectionlessPromises (Promise_some (Some (VPromise <$> ps))) = reverse ps ∧
  reasons (Promise_some (Some (VPromise <$> ps))) = [] ∧
  rejectionCount (Promise_some (Some (VPromise <$> ps))) = 0 ∧
  result (Promise_some (Some (VPromise <$> ps))) = Pending.
Proof.
  intros Hne.
  destruct (Promise_some_nonempty (VPromise <$> ps)) as (-> & -> & -> & ->);
    [by destruct ps|].
  by rewrite input_pids_promises, forallb_promises.
Qed.

Lemma Promise_some_start promises :
  length (rejectionlessPromises (Promise_some promises))
  ≤ promises_length promises ∧
  (∀ p, p ∈ rejectionlessPromises (Promise_some promises) →
        ∃ l, promises = Some l ∧ VPromise p ∈ l) ∧
  reasons (Promise_some promises) = [] ∧
  rejectionCount (Promise_some promises) = 0 ∧
  (result (Promise_some promises) = Pending ∨
   (result (Promise_some promises) = Fulfilled (ByValue (VArray []))
    ∧ promises_length promises = 0) ∨
   result (Promise_some promises)
   = Rejected (ByValue (VString only_promises_msg))).
Proof.
  destruct promises as [l|]; [destruct (decide (l = [])) as [->|Hne]|].
  - cbn. split; [done|]. split; [by intros p ?%elem_of_nil|].
    split; [done|]. split; [done|]. right. left. done.
  - destruct (Promise_some_nonempty l Hne) as (Hr & -> & -> & ->).
    rewrite Hr. cbn [promises_length].
    rewrite length_reverse. split; [apply input_pids_length|].
    split.
    { intros p Hp%elem_of_reverse%input_pids_elem. by exists l. }
    split; [done|]. split; [done|].
    destruct (forallb instanceof_Promise l); auto.
  - cbn. split; [done|]. split; [by intros p ?%elem_of_nil|].
    split; [done|]. split; [done|]. right. left. done.
Qed.

(** X1: for a non-empty input the call returns with one handler pair on
    every promise of the input, attached from the last element to the
    first, also when other elements are not promises; nothing is logged
    yet, and the returned promise is pending when all elements are promises
    and rejected with the validation message otherwise. *)
Theorem some_state_on_return (l : list value) :
  l ≠ [] →
  rejectionlessPromises (Promise_some (Some l)) = reverse (input_pids l) ∧
  reasons (Promise_some (Some l)) = [] ∧
  rejectionCount (Promise_some (Some l)) = 0 ∧
  observe (Promise_some (Some l))
  = if forallb instanceof_Promise l then IsPending
    else IsRejected (VString only_promises_msg).
Proof.
  intros Hne.
  destruct (Promise_some_nonempty l Hne) as (Hregs & Hr & Hc & Hres).
  repeat split; try done.
  unfold observe. rewrite Hres.
  by destruct (forallb instanceof_Promise l).
Qed.

Lemma some_state_on_return_witness :
  rejectionlessPromises
    (Promise_some (Some [VPromise 4; VString "x"; VPromise 9])) = [9; 4] ∧
  reasons (Promise_some (Some [VPromise 4; VString "x"; VPromise 9])) = [] ∧
  rejectionCount (Promise_some (Some [VPromise 4; VString "x"; VPromise 9]))
  = 0 ∧
  observe (Promise_some (Some [VPromise 4; VString "x"; VPromise 9]))
  = IsRejected (VString only_promises_msg).
Proof.
  apply (some_state_on_return [VPromise 4; VString "x"; VPromise 9]).
  discriminate.
Defined.

(** ** Vacuous success *)

Lemma run_result_settled past promises sched :
  result (Promise_some promises) ≠ Pending →
  result (run past promises sched) = result (Promise_some promises).
Proof.
  intros Hs. rewrite run_react_all. by apply react_all_result_settled.
Qed.

(** C8: [Promise.some([])] and [Promise.some(undefined)] both return a
    promise that is already fulfilled with an empty array, and nothing that
    settled before the call or settles after it changes that. *)
Theorem some_vacuous_success :
  observe (Promise_some (Some [])) = IsFulfilled (VArray []) ∧
  observe (Promise_some None) = IsFulfilled (VArray []) ∧
  ∀ past sched : list event,
    observe (run past (Some []) sched) = IsFulfilled (VArray []) ∧
    observe (run past None sched) = IsFulfilled (VArray []).
Proof.
  split; [done|]. split; [done|].
  intros past sched. unfold observe.
  split; rewrite run_result_settled; done.
Qed.

(** ** Validation failure *)

Lemma some_invalid_start (l : list value) x :
  x ∈ l → instanceof_Promise x = false →
  result (Promise_some (Some l))
  = Rejected (ByValue (VString only_promises_msg)).
Proof.
  intros Hin Hnp.
  assert (l ≠ []) as Hne by (intros ->; by apply elem_of_nil in Hin).
  destruct (Promise_some_nonempty l Hne) as (_ & _ & _ & Hres).
  assert (forallb instanceof_Promise l = false) as Hall.
  { apply not_true_iff_false. intros Hall.
    rewrite forallb_forall in Hall.
    apply list_elem_of_In in Hin. rewrite (Hall x Hin) in Hnp. done. }
  by rewrite Hall in Hres.
Qed.

Lemma some_invalid_result (l : list value) (past sched : list event) x :
  x ∈ l → instanceof_Promise x = false →
  result (run past (Some l) sched)
  = Rejected (ByValue (VString only_promises_msg)).
Proof.
  intros Hin Hnp. pose proof (some_invalid_start l x Hin Hnp) as Hres.
  rewrite run_result_settled; by rewrite Hres.
Qed.

(** C6: when the input holds an element that is not a promise, the promise
    returned by [Promise.some] is rejected with the validation message as
    soon as the call returns, and it stays rejected with that message
    whatever the promises of the input did before or do afterwards. *)
Theorem some_invalid_element_rejects (l : list value) (x : value) :
  x ∈ l → instanceof_Promise x = false →
  observe (Promise_some (Some l)) = IsRejected (VString only_promises_msg) ∧
  ∀ past sched : list event,
    observe (run past (Some l) sched)
    = IsRejected (VString only_promises_msg).
Proof.
  intros Hin Hnp. split.
  - unfold observe. by rewrite (some_invalid_start l x Hin Hnp).
  - intros past sched. unfold observe.
    by rewrite (some_invalid_result l past sched x Hin Hnp).
Qed.

Lemma some_invalid_element_rejects_witness :
  observe (Promise_some (Some [VPromise 0; VNumber (NFinite 7); VPromise 1]))
  = IsRejected (VString only_promises_msg) ∧
  ∀ past sched : list event,
    observe (run past (Some [VPromise 0; VNumber (NFinite 7); VPromise 1])
                 sched)
    = IsRejected (VString only_promises_msg).
Proof.
  apply (some_invalid_element_rejects _ (VNumber (NFinite 7))).
  - apply list_elem_of_In. simpl. auto.
  - reflexivity.
Defined.

(** C10: with an element that is not a promise in the input,
    [Promise.none] fulfils, and the value is the validation message of
    [Promise.some]. *)
Theorem none_invalid_element_fulfils (l : list value) (x : value)
    (past sched : list event) :
  x ∈ l → instanceof_Promise x = false →
  Promise_none past (Some l) sched = IsFulfilled (VString only_promises_msg).
Proof.
  intros Hin Hnp. unfold Promise_none, observe.
  by rewrite (some_invalid_result l past sched x Hin Hnp).
Qed.

Lemma none_invalid_element_fulfils_witness :
  Promise_none [(4, Fulfils VNull)] (Some [VString "p"; VPromise 4]) []
  = IsFulfilled (VString only_promises_msg).
Proof.
  apply (none_invalid_element_fulfils _ (VString "p")).
  - apply list_elem_of_In. simpl. auto.
  - reflexivity.
Defined.

(** ** Invariants of a call *)

Lemma resolve_rejection_ok st x : rejection_ok st → rejection_ok (resolve st x).
Proof.
  unfold rejection_ok, resolve. destruct (result st) eqn:E; try by rewrite E.
  intros _. destruct x as [v|]; [by destruct (thenable v)|done].
Qed.

Lemma reject_rejection_ok st x :
  (∀ v, x = ByValue v → v = VString only_promises_msg) →
  rejection_ok st → rejection_ok (reject st x).
Proof.
  intros Hx. unfold rejection_ok, reject.
  destruct (result st) eqn:E; try by rewrite E.
  intros _. cbn. destruct x; [by apply Hx|done].
Qed.

Lemma react_rejection_ok n st o : rejection_ok st → rejection_ok (react n st o).
Proof.
  intros Hok. destruct o as [v|r]; cbn [react].
  - by apply resolve_rejection_ok.
  - unfold rejectLastFailure. cbn [rejectionCount].
    destruct (S (rejectionCount st) =? n); [|exact Hok].
    apply reject_rejection_ok; [discriminate|exact Hok].
Qed.

Lemma react_inv n st o : run_inv n st → run_inv n (react n st o).
Proof.
  intros (Hlen & Hrej & Hful). destruct o as [v|r]; cbn [react].
  - destruct (resolve_fields st (ByValue v)) as (_ & Er & Ec).
    unfold run_inv. rewrite Er, Ec. split; [done|].
    unfold resolve. destruct (result st) eqn:E; rewrite ?E; try done.
    destruct (thenable v); cbn; split; done.
  - unfold run_inv.
    rewrite rejectLastFailure_reasons, rejectLastFailure_count, length_app.
    cbn [length]. split; [lia|].
    unfold rejectLastFailure, reject. cbn [rejectionCount result].
    destruct (Nat.eqb_spec (S (rejectionCount st)) n) as [Heq|Hneq].
    + destruct (result st) eqn:E; cbn [result]; rewrite ?E;
        (split; [intros; try lia; specialize (Hrej ltac:(done)); lia|done]).
    + cbn [result]. split; [intros H; specialize (Hrej H); lia|done].
Qed.

Lemma react_all_preserves (P : state → Prop) n js st :
  (∀ s o, P s → P (react n s o)) → P st → P (react_all n js st).
Proof.
  intros Hstep. revert st. induction js as [|j js IH]; intros st HP; [done|].
  cbn [react_all fold_left]. apply IH. by apply Hstep.
Qed.

Lemma run_rejection_ok past promises sched :
  rejection_ok (run past promises sched).
Proof.
  rewrite run_react_all.
  apply react_all_preserves; [intros; by apply react_rejection_ok|].
  unfold rejection_ok.
  destruct (Promise_some_start promises) as (_ & _ & _ & _ & Hres).
  by destruct Hres as [->|[[-> _]| ->]].
Qed.

Lemma run_inv_holds past promises sched :
  run_inv (promises_length promises) (run past promises sched).
Proof.
  rewrite run_react_all.
  apply react_all_preserves; [intros; by apply react_inv|].
  destruct (Promise_some_start promises) as (_ & _ & Hr & Hc & Hres).
  unfold run_inv. rewrite Hr, Hc. split; [done|].
  destruct Hres as [->|[[-> _]| ->]]; split; done.
Qed.

(** ** Negation *)

(** C5: whatever the input, whatever had settled before the call and
    whatever has settled since, the promise returned by [Promise.none] is
    fulfilled with [r] exactly when the one returned by [Promise.some] is
    rejected with [r], and rejected with [v] exactly when the one returned
    by [Promise.some] is fulfilled with [v]. *)
Theorem none_negates_some (past : list event)
    (promises : option (list value)) (sched : list event) :
  (∀ r, Promise_none past promises sched = IsFulfilled r
        ↔ observe (run past promises sched) = IsRejected r) ∧
  (∀ v, Promise_none past promises sched = IsRejected v
        ↔ observe (run past promises sched) = IsFulfilled v).
Proof.
  unfold Promise_none.
  pose proof (run_rejection_ok past promises sched) as Hok.
  unfold rejection_ok in Hok. unfold observe in *.
  destruct (result (run past promises sched)) as [|x|x|q] eqn:E;
    cbn [none_of view_resolve view_reject].
  - split; intros; split; discriminate.
  - split; intros; split; try discriminate; congruence.
  - assert (thenable (deref (run past promises sched) x) = false) as ->.
    { destruct x as [v|]; [by subst v|done]. }
    split; intros; split; try discriminate; congruence.
  - split; intros; split; discriminate.
Qed.

(** ** Counting the reactions *)

Lemma handlers_on_0 q regs : q ∉ regs → handlers_on q regs = 0.
Proof.
  induction regs as [|x regs IH]; intros Hq; [done|].
  apply not_elem_of_cons in Hq as [Hne Hq]. simpl.
  destruct (Nat.eqb_spec x q); [congruence|]. by rewrite IH.
Qed.

Lemma handlers_on_pos q regs : q ∈ regs → 0 < handlers_on q regs.
Proof.
  induction regs as [|x regs IH]; intros Hq; [by apply elem_of_nil in Hq|].
  simpl. destruct (Nat.eqb_spec x q); [lia|].
  apply elem_of_cons in Hq as [->|Hq]; [done|]. specialize (IH Hq). lia.
Qed.

Lemma handlers_on_NoDup q ps : NoDup ps → q ∈ ps → handlers_on q ps = 1.
Proof.
  induction 1 as [|x ps Hx Hnd IH]; intros Hq; [by apply elem_of_nil in Hq|].
  cbn [handlers_on]. destruct (Nat.eqb_spec x q) as [->|Hne].
  - by rewrite handlers_on_0.
  - apply elem_of_cons in Hq as [->|Hq]; [done|]. by rewrite IH.
Qed.

Lemma total_nil qs : total [] qs = 0.
Proof. induction qs; simpl; auto. Qed.

Lemma total_cons x regs qs :
  NoDup qs →
  total (x :: regs) qs = (if bool_decide (x ∈ qs) then 1 else 0) + total regs qs.
Proof.
  induction 1 as [|q qs Hq Hnd IH]; [done|].
  simpl. rewrite IH.
  destruct (Nat.eqb_spec x q) as [->|Hne].
  - rewrite (bool_decide_eq_true_2 (q ∈ q :: qs)) by left.
    rewrite (bool_decide_eq_false_2 (q ∈ qs)) by done. lia.
  - destruct (decide (x ∈ qs)) as [Hin|Hnin].
    + rewrite (bool_decide_eq_true_2 (x ∈ q :: qs)) by (by right).
      rewrite (bool_decide_eq_true_2 (x ∈ qs)) by done. lia.
    + rewrite (bool_decide_eq_false_2 (x ∈ q :: qs))
        by (intros [?|?]%elem_of_cons; done).
      rewrite (bool_decide_eq_false_2 (x ∈ qs)) by done. lia.
Qed.

Lemma later_length regs sched :
  length (later regs sched) = total regs sched.*1.
Proof.
  unfold later. induction sched as [|e sched IH]; [done|].
  rewrite fmap_cons. cbn [flat_map total].
  by rewrite length_app, length_replicate, IH.
Qed.

Lemma settled_at_call_elem past p o :
  settled_at_call past p = Some o → (p, o) ∈ past.
Proof.
  induction past as [|[q o'] past IH]; [done|]. cbn [settled_at_call fst snd].
  destruct (Nat.eqb_spec q p) as [->|Hne].
  - intros [= ->]. left.
  - intros H. right. by apply IH.
Qed.

Lemma settled_at_call_None past p :
  settled_at_call past p = None ↔ p ∉ past.*1.
Proof.
  induction past as [|[q o'] past IH].
  - cbn. split; [intros _; apply not_elem_of_nil|done].
  - rewrite fmap_cons. cbn [settled_at_call fst snd].
    rewrite not_elem_of_cons, <- IH.
    destruct (Nat.eqb_spec q p) as [->|Hne].
    + split; [done|]. by intros [? _].
    + split; [intros; split; [congruence|done]|by intros [_ ?]].
Qed.

Lemma queued_cons past x regs :
  queued past (x :: regs)
  = match settled_at_call past x with
    | Some o => (x, o) :: queued past regs
    | None => queued past regs
    end.
Proof. unfold queued. cbn. by destruct (settled_at_call past x). Qed.

Lemma queued_elem past regs j :
  j ∈ queued past regs ↔ j.1 ∈ regs ∧ settled_at_call past j.1 = Some j.2.
Proof.
  unfold queued. rewrite list_elem_of_omap. split.
  - intros (q & Hq & Ho).
    destruct (settled_at_call past q) as [o|] eqn:E; [|done].
    cbn in Ho. by simplify_eq.
  - intros [Hin Hs]. exists j.1. split; [done|]. rewrite Hs.
    by destruct j.
Qed.

Lemma later_elem regs sched j :
  j ∈ later regs sched ↔ j ∈ sched ∧ j.1 ∈ regs.
Proof.
  unfold later. rewrite list_elem_of_In, in_flat_map. split.
  - intros (e & He & Hj). apply list_elem_of_In, elem_of_replicate in Hj
      as [-> Hpos].
    split; [by apply list_elem_of_In|].
    destruct (decide (e.1 ∈ regs)) as [|Hnin]; [done|].
    by rewrite handlers_on_0 in Hpos.
  - intros [Hj Hin]. exists j. split; [by apply list_elem_of_In|].
    apply list_elem_of_In, elem_of_replicate. split; [done|].
    pose proof (handlers_on_pos _ _ Hin). lia.
Qed.

Lemma reactions_elem past regs sched j :
  j ∈ reactions past regs sched → j ∈ past ++ sched ∧ j.1 ∈ regs.
Proof.
  unfold reactions. rewrite !elem_of_app, queued_elem, later_elem.
  intros [[Hin Hs]|[Hj Hin]]; (split; [|done]); [left|by right].
  destruct j. by apply settled_at_call_elem.
Qed.

(** Every handler pair reacts at most once when no promise settles twice,
    and exactly once when every promise it hangs on has settled. *)
Lemma reactions_length past regs sched :
  NoDup (past ++ sched).*1 →
  length (reactions past regs sched) ≤ length regs ∧
  (length (reactions past regs sched) = length regs
   ↔ ∀ x, x ∈ regs → x ∈ (past ++ sched).*1).
Proof.
  intros Hnd. rewrite fmap_app in Hnd.
  pose proof Hnd as (_ & Hdisj & Hnd2)%NoDup_app.
  unfold reactions. rewrite length_app, later_length.
  induction regs as [|x regs IH].
  - rewrite total_nil. cbn. split; [done|]. split; [|done].
    by intros _ x ?%elem_of_nil.
  - rewrite queued_cons, total_cons by done. cbn [length].
    destruct IH as [IHle IHeq].
    assert ((∀ y, y ∈ x :: regs → y ∈ (past ++ sched).*1)
            ↔ x ∈ (past ++ sched).*1 ∧ ∀ y, y ∈ regs → y ∈ (past ++ sched).*1)
      as ->.
    { split; [intros H; split; [apply H; left|intros y Hy; apply H; by right]|].
      intros [Hx H] y [->|Hy]%elem_of_cons; auto. }
    rewrite <- IHeq, fmap_app, elem_of_app.
    destruct (settled_at_call past x) as [o|] eqn:E.
    + assert (x ∈ past.*1) as Hp.
      { destruct (decide (x ∈ past.*1)) as [|Hn]; [done|].
        apply settled_at_call_None in Hn. congruence. }
      rewrite bool_decide_eq_false_2 by (intros Hs; by apply (Hdisj x)).
      cbn [length]. split; [lia|]. split; [intros; split; [by left|lia]|].
      intros [_ ?]. lia.
    + apply settled_at_call_None in E. case_bool_decide as Hs.
      * split; [lia|]. split; [intros; split; [by right|lia]|].
        intros [_ ?]. lia.
      * split; [lia|]. split; [lia|]. intros [[?|?] _]; done.
Qed.

(** ** Where a settlement comes from *)

Lemma pending_or_settled st : result st = Pending ∨ result st ≠ Pending.
Proof. destruct (result st); auto. Qed.

Lemma react_fulfilled_origin n st o x :
  result st = Pending → result (react n st o) = Fulfilled x →
  ∃ v, x = ByValue v ∧ o = Fulfils v.
Proof.
  intros HP Hres. destruct o as [v|r]; cbn [react] in Hres.
  - exists v. unfold resolve in Hres. rewrite HP in Hres.
    destruct (thenable v); cbn in Hres; [discriminate|].
    split; congruence.
  - rewrite rejectLastFailure_result in Hres by done.
    by destruct (S (rejectionCount st) =? n).
Qed.

Lemma react_all_fulfilled_origin n js st x :
  result (react_all n js st) = Fulfilled x →
  result st = Fulfilled x ∨ ∃ p v, x = ByValue v ∧ (p, Fulfils v) ∈ js.
Proof.
  revert st. induction js as [|j js IH]; intros st Hres; [by left|].
  cbn [react_all fold_left] in Hres.
  destruct (IH _ Hres) as [H1|(p & v & -> & Hin)].
  - destruct (pending_or_settled st) as [HP|Hset].
    + destruct (react_fulfilled_origin n st j.2 x HP H1) as (v & -> & Hv).
      right. exists j.1, v. split; [done|].
      destruct j as [p o]. cbn in *. subst o. left.
    + rewrite react_result_settled in H1 by done. by left.
  - right. exists p, v. split; [done|by right].
Qed.

Lemma react_reasons_origin n st o x :
  x ∈ reasons (react n st o) → x ∈ reasons st ∨ o = Rejects x.
Proof.
  destruct o as [v|r]; cbn [react].
  - destruct (resolve_fields st (ByValue v)) as (_ & -> & _). auto.
  - rewrite rejectLastFailure_reasons.
    intros [?|Hr%list_elem_of_singleton]%elem_of_app; [by left|].
    right. by rewrite Hr.
Qed.

Lemma react_all_reasons_origin n js st x :
  x ∈ reasons (react_all n js st) →
  x ∈ reasons st ∨ ∃ p, (p, Rejects x) ∈ js.
Proof.
  revert st. induction js as [|j js IH]; intros st Hx; [by left|].
  cbn [react_all fold_left] in Hx.
  destruct (IH _ Hx) as [H|(p & Hin)].
  - destruct (react_reasons_origin _ _ _ _ H) as [?|Ho]; [by left|].
    right. exists j.1. destruct j as [p o]. cbn in *. subst o. left.
  - right. exists p. by right.
Qed.

(** X2: the promise returned by [Promise.some] is fulfilled only with the
    empty array (empty or absent input) or with the value some promise of
    the input was fulfilled with, before the call or after it. *)
Theorem some_fulfilment_origin (past : list event)
    (promises : option (list value)) (sched : list event) (v : value) :
  observe (run past promises sched) = IsFulfilled v →
  (v = VArray [] ∧ promises_length promises = 0) ∨
  ∃ p l, promises = Some l ∧ VPromise p ∈ l ∧ (p, Fulfils v) ∈ past ++ sched.
Proof.
  intros Hobs. unfold observe in Hobs.
  destruct (result (run past promises sched)) as [|x| |] eqn:E;
    try discriminate Hobs.
  destruct (Promise_some_start promises) as (_ & Hregs & _ & _ & Hstart).
  rewrite run_react_all in E.
  destruct (react_all_fulfilled_origin _ _ _ _ E) as [H0|(p & w & -> & Hin)].
  - destruct Hstart as [H|[[H Hlen]|H]]; rewrite H in H0; try discriminate H0.
    left. injection H0 as <-. cbn in Hobs. split; [congruence|done].
  - right. apply reactions_elem in Hin as [Hin Hp].
    destruct (Hregs p Hp) as (l & -> & Hl).
    exists p, l. cbn in Hobs. injection Hobs as <-. done.
Qed.

Lemma some_fulfilment_origin_witness :
  (VString "C" = VArray []
   ∧ promises_length (Some [VPromise 0; VPromise 1; VPromise 2]) = 0) ∨
  ∃ p l, Some [VPromise 0; VPromise 1; VPromise 2] = Some l ∧ VPromise p ∈ l ∧
         (p, Fulfils (VString "C"))
         ∈ [(1, Rejects (VString "B"))]
           ++ [(2, Fulfils (VString "C")); (0, Fulfils (VString "A"))].
Proof.
  apply (some_fulfilment_origin [(1, Rejects (VString "B"))]
           (Some [VPromise 0; VPromise 1; VPromise 2])).
  reflexivity.
Defined.

(** The counter is squeezed between [promises.length] and the number of
    handler pairs once the promise is rejected with [reasons]. *)
Lemma rejected_with_reasons_full past promises sched :
  NoDup (past ++ sched).*1 →
  result (run past promises sched) = Rejected ByReasons →
  rejectionCount (run past promises sched) = promises_length promises ∧
  ∀ x, x ∈ rejectionlessPromises (Promise_some promises) →
       x ∈ (past ++ sched).*1.
Proof.
  intros Hnd Hres.
  destruct (run_inv_holds past promises sched) as (_ & Hge & _).
  specialize (Hge Hres).
  destruct (Promise_some_start promises) as (Hlen & _ & _ & Hc & _).
  destruct (reactions_length past
              (rejectionlessPromises (Promise_some promises)) sched Hnd)
    as [Hle Hfull].
  pose proof (react_all_count (promises_length promises)
                (reactions past (rejectionlessPromises (Promise_some promises))
                           sched)
                (Promise_some promises)) as Hcount.
  rewrite <- run_react_all, Hc in Hcount.
  split; [lia|]. apply Hfull. lia.
Qed.

(** X3: when no promise settles twice and the promise returned by
    [Promise.some] is rejected, the reason is the validation message or an
    array with exactly [promises.length] entries, each of them the reason
    some promise of the input was rejected with, before the call or after
    it. *)
Theorem some_rejection_origin (past : list event)
    (promises : option (list value)) (sched : list event) (r : value) :
  NoDup (past ++ sched).*1 →
  observe (run past promises sched) = IsRejected r →
  r = VString only_promises_msg ∨
  ∃ l rs, promises = Some l ∧ r = VArray rs ∧ length rs = length l ∧
          ∀ x, x ∈ rs → ∃ p, VPromise p ∈ l ∧ (p, Rejects x) ∈ past ++ sched.
Proof.
  intros Hnd Hobs. unfold observe in Hobs.
  destruct (result (run past promises sched)) as [| |x|] eqn:E;
    try discriminate Hobs.
  pose proof (run_rejection_ok past promises sched) as Hok.
  unfold rejection_ok in Hok. rewrite E in Hok.
  destruct x as [v|]; [left; cbn in Hobs; congruence|]. right.
  destruct (rejected_with_reasons_full past promises sched Hnd E) as [Hc _].
  destruct (run_inv_holds past promises sched) as (Hlen & _ & _).
  destruct (Promise_some_start promises) as (_ & Hregs & Hr0 & _ & _).
  destruct promises as [l|].
  - exists l, (reasons (run past (Some l) sched)).
    cbn in Hobs. split; [done|]. split; [congruence|].
    split; [by rewrite Hlen, Hc|].
    intros x Hx. rewrite run_react_all in Hx.
    destruct (react_all_reasons_origin _ _ _ _ Hx) as [H|(p & Hin)].
    + rewrite Hr0 in H. by apply elem_of_nil in H.
    + apply reactions_elem in Hin as [Hin Hp].
      destruct (Hregs p Hp) as (l' & [= <-] & Hl). by exists p.
  - rewrite run_result_settled in E by done. discriminate E.
Qed.

Lemma some_rejection_origin_witness :
  VArray [VString "y"; VString "x"] = VString only_promises_msg ∨
  ∃ l rs, Some [VPromise 0; VPromise 1] = Some l
          ∧ VArray [VString "y"; VString "x"] = VArray rs
          ∧ length rs = length l ∧
          ∀ x, x ∈ rs →
               ∃ p, VPromise p ∈ l
                    ∧ (p, Rejects x)
                      ∈ [(1, Rejects (VString "y"))]
                        ++ [(0, Rejects (VString "x"))].
Proof.
  apply (some_rejection_origin [(1, Rejects (VString "y"))]
           (Some [VPromise 0; VPromise 1])).
  - apply NoDup_ListNoDup. repeat constructor; simpl; intuition lia.
  - reflexivity.
Defined.

Lemma later_nil regs sched :
  (∀ e, e ∈ sched → e.1 ∉ regs) → later regs sched = [].
Proof.
  unfold later. induction sched as [|e sched IH]; intros H; [done|].
  cbn [flat_map]. rewrite handlers_on_0 by (apply H; left).
  cbn. apply IH. intros e' He'. apply H. by right.
Qed.

(** X4: when no promise settles twice, what a caller sees of the promise
    returned by [Promise.some] no longer changes once it is settled: later
    settlements neither replace the value nor touch the array of reasons it
    was rejected with. *)
Theorem some_settled_stable (past : list event)
    (promises : option (list value)) (sched1 sched2 : list event) :
  NoDup (past ++ sched1 ++ sched2).*1 →
  observe (run past promises sched1) ≠ IsPending →
  observe (run past promises (sched1 ++ sched2))
  = observe (run past promises sched1).
Proof.
  intros Hnd Hset. rewrite run_app.
  assert (result (run past promises sched1) ≠ Pending) as Hres.
  { intros H. apply Hset. unfold observe. by rewrite H. }
  unfold observe. rewrite react_all_result_settled by done.
  destruct (run_inv_holds past promises sched1) as (_ & _ & Hnf).
  destruct (result (run past promises sched1)) as [|[v|]|[v|]|q] eqn:E;
    try done.
  rewrite app_assoc, fmap_app in Hnd.
  apply NoDup_app in Hnd as (Hnd1 & Hdisj & _).
  destruct (rejected_with_reasons_full past promises sched1 Hnd1 E)
    as [_ Hall].
  rewrite later_nil; [done|].
  intros e He Hin. apply (Hdisj e.1 (Hall _ Hin)).
  apply list_elem_of_fmap. by exists e.
Qed.

Lemma some_settled_stable_witness :
  observe (run [(2, Rejects VNull)]
               (Some [VPromise 0; VPromise 1; VPromise 2])
               ([(1, Fulfils (VString "a"))] ++ [(0, Fulfils (VString "b"))]))
  = observe (run [(2, Rejects VNull)]
                 (Some [VPromise 0; VPromise 1; VPromise 2])
                 [(1, Fulfils (VString "a"))]).
Proof.
  apply some_settled_stable.
  - apply NoDup_ListNoDup. repeat constructor; simpl; intuition lia.
  - discriminate.
Defined.

(** ** Rejections being logged, and the first success *)

Lemma react_all_rejections n js st :
  Forall (fun j : event => ∃ r, j.2 = Rejects r) js →
  reasons (react_all n js st)
  = reasons st ++ ((fun j : event => carried j.2) <$> js) ∧
  rejectionCount (react_all n js st) = rejectionCount st + length js ∧
  (result st = Pending → rejectionCount st < n →
   result (react_all n js st)
   = if n <=? rejectionCount st + length js
     then Rejected ByReasons else Pending).
Proof.
  intros Hall. revert st. induction Hall as [|j js [r Hj] _ IH]; intros st.
  - cbn. rewrite app_nil_r, Nat.add_0_r. split; [done|]. split; [done|].
    intros HP Hlt. destruct (Nat.leb_spec n (rejectionCount st)); [lia|done].
  - cbn [react_all fold_left]. fold (react_all n js (react n st j.2)).
    destruct (IH (react n st j.2)) as (Hr & Hc & Hres).
    rewrite Hr, Hc, fmap_cons, Hj. cbn [react carried length].
    rewrite rejectLastFailure_reasons, rejectLastFailure_count.
    split; [by rewrite <- app_assoc|]. split; [lia|].
    intros HP Hlt. rewrite Hj in Hres. cbn [react] in Hres.
    pose proof (rejectLastFailure_result n st r HP) as Hone.
    destruct (Nat.eqb_spec (S (rejectionCount st)) n) as [Heq|Hneq].
    + rewrite react_all_result_settled by (by rewrite Hone).
      rewrite Hone.
      destruct (Nat.leb_spec n (rejectionCount st + S (length js)));
        [done|lia].
    + rewrite Hres; [|done|rewrite rejectLastFailure_count; lia].
      rewrite rejectLastFailure_count.
      by replace (S (rejectionCount st) + length js)
        with (rejectionCount st + S (length js)) by lia.
Qed.

Lemma react_all_first_fulfilment n pre post p v st :
  result st = Pending →
  Forall (fun j : event => ∃ r, j.2 = Rejects r) pre →
  rejectionCount st + length pre < n →
  thenable v = false →
  result (react_all n (pre ++ (p, Fulfils v) :: post) st)
  = Fulfilled (ByValue v).
Proof.
  intros HP Hpre Hlt Hv.
  destruct (react_all_rejections n pre st Hpre) as (_ & _ & Hres).
  rewrite react_all_app. cbn [react_all fold_left snd react].
  fold (react_all n pre st).
  assert (result (resolve (react_all n pre st) (ByValue v))
          = Fulfilled (ByValue v)) as Hf.
  { unfold resolve. rewrite Hres by (done || lia).
    destruct (Nat.leb_spec n (rejectionCount st + length pre)); [lia|].
    by rewrite Hv. }
  match goal with
  | |- result (fold_left ?f post ?s) = _ =>
      change (fold_left f post s) with (react_all n post s)
  end.
  rewrite react_all_result_settled; by rewrite Hf.
Qed.

(** The state of a call on promises after settlements that, as far as they
    concern the input, are all rejections. *)
Lemma run_rejected_state past ps sched :
  ps ≠ [] →
  NoDup (past ++ sched).*1 →
  Forall (fun e : event => e.1 ∈ ps → ∃ r, e.2 = Rejects r) (past ++ sched) →
  let st := run past (Some (VPromise <$> ps)) sched in
  let js := reactions past (reverse ps) sched in
  reasons st = (fun j : event => carried j.2) <$> js ∧
  rejectionCount st = length js ∧
  length js ≤ length ps ∧
  (length js = length ps ↔ ∀ p, p ∈ ps → p ∈ (past ++ sched).*1) ∧
  result st = if length js =? length ps then Rejected ByReasons else Pending.
Proof.
  intros Hne Hnd Hrej st js.
  destruct (Promise_some_promises ps Hne) as (Hregs & Hr0 & Hc0 & Hres0).
  assert (st = react_all (length ps) js
                 (Promise_some (Some (VPromise <$> ps)))) as Hst.
  { subst st js. rewrite run_react_all, Hregs. cbn [promises_length].
    by rewrite length_fmap. }
  assert (Forall (fun j : event => ∃ r, j.2 = Rejects r) js) as Hjs.
  { apply Forall_forall. intros j [Hj Hp]%reactions_elem.
    apply (proj1 (elem_of_reverse _ _)) in Hp.
    by apply (proj1 (Forall_forall _ _) Hrej j). }
  destruct (react_all_rejections (length ps) js
              (Promise_some (Some (VPromise <$> ps))) Hjs) as (Hr & Hc & Hres).
  rewrite <- Hst, Hr0 in Hr. rewrite <- Hst, Hc0 in Hc, Hres.
  destruct (reactions_length past (reverse ps) sched Hnd) as [Hle Hfull].
  rewrite length_reverse in Hle, Hfull. fold js in Hle, Hfull.
  split; [done|]. split; [done|]. split; [done|]. split.
  - rewrite Hfull. split; intros H p Hp.
    + by apply H, elem_of_reverse.
    + by apply H, elem_of_reverse.
  - rewrite Hres by (done || (destruct ps; [done|cbn; lia])).
    cbn [Nat.add].
    destruct (Nat.leb_spec (length ps) (length js)),
             (Nat.eqb_spec (length js) (length ps)); (done || lia).
Qed.

Lemma run_first_fulfilment past ps sched (pre post : list event) p v :
  p ∈ ps →
  NoDup (past ++ sched).*1 →
  seen_in_order past ps sched = pre ++ (p, Fulfils v) :: post →
  Forall (fun e : event => e.1 ∈ ps → ∃ r, e.2 = Rejects r) pre →
  thenable v = false →
  result (run past (Some (VPromise <$> ps)) sched) = Fulfilled (ByValue v).
Proof.
  intros Hin Hnd Hseen Hpre Hv.
  assert (ps ≠ []) as Hne by (intros ->; by apply elem_of_nil in Hin).
  destruct (Promise_some_promises ps Hne) as (Hregs & Hr0 & Hc0 & Hres0).
  rewrite run_react_all, Hregs. cbn [promises_length]. rewrite length_fmap.
  destruct (reactions_length past (reverse ps) sched Hnd) as [Hle _].
  rewrite length_reverse in Hle.
  assert (∃ pre' post',
             reactions past (reverse ps) sched
             = pre' ++ (p, Fulfils v) :: post' ∧
             Forall (fun j : event => ∃ r, j.2 = Rejects r) pre')
    as (pre' & post' & Hjs & Hpre').
  { unfold seen_in_order in Hseen. unfold reactions.
    apply app_eq_app in Hseen as [l [[Hq Hs]|[Hp Hs]]].
    - destruct l as [|f l].
      + cbn in Hs. rewrite app_nil_r in Hq. subst sched.
        exists (queued past (reverse ps)),
               (replicate (pred (handlers_on p (reverse ps))) (p, Fulfils v)
                ++ later (reverse ps) post).
        split.
        * unfold later. cbn [flat_map fst].
          pose proof (handlers_on_pos p (reverse ps)
                        (proj2 (elem_of_reverse _ _) Hin)) as Hpos.
          destruct (handlers_on p (reverse ps)); [lia|]. cbn.
          by rewrite <- ?app_assoc.
        * rewrite Hq. apply Forall_forall. intros j Hj.
          apply (proj1 (Forall_forall _ _) Hpre j Hj).
          rewrite <- Hq in Hj. apply queued_elem in Hj as [Hj _].
          by apply elem_of_reverse.
      + injection Hs as <- ->. rewrite Hq.
        exists pre, (l ++ later (reverse ps) sched).
        split; [by rewrite <- app_assoc|].
        apply Forall_forall. intros j Hj.
        apply (proj1 (Forall_forall _ _) Hpre j Hj).
        assert (j ∈ queued past (reverse ps)) as Hj'
          by (rewrite Hq; apply elem_of_app; by left).
        apply queued_elem in Hj' as [Hj' _]. by apply elem_of_reverse.
    - subst sched pre. rewrite later_app.
      exists (queued past (reverse ps) ++ later (reverse ps) l),
             (replicate (pred (handlers_on p (reverse ps))) (p, Fulfils v)
              ++ later (reverse ps) post).
      split.
      + unfold later at 2. cbn [flat_map fst].
        pose proof (handlers_on_pos p (reverse ps)
                      (proj2 (elem_of_reverse _ _) Hin)) as Hpos.
        destruct (handlers_on p (reverse ps)); [lia|]. cbn.
        by rewrite <- ?app_assoc.
      + apply Forall_forall. intros j Hj.
        apply elem_of_app in Hj as [Hj|Hj].
        * apply (proj1 (Forall_forall _ _) Hpre j);
            [apply elem_of_app; by left|].
          apply queued_elem in Hj as [Hj _]. by apply elem_of_reverse.
        * apply later_elem in Hj as [Hj Hp].
          apply (proj1 (Forall_forall _ _) Hpre j);
            [apply elem_of_app; by right|].
          by apply elem_of_reverse. }
  rewrite Hjs. apply react_all_first_fulfilment; [done|done| |done].
  rewrite Hc0, Hjs, length_app in *. cbn [length] in Hle. lia.
Qed.

(** C1, as the code has it: with promises as input, the result is the
    value of the first fulfilment that [Promise.some] gets to see, where
    the settlements from before the call are seen first, from the last
    element of the input to the first, and the later ones in the order in
    which they happen; whatever is seen before that fulfilment among the
    input is a rejection.  No promise settles twice, and the value a
    promise is fulfilled with is never itself a thenable. *)
Theorem some_first_success (past : list event) (ps : list nat)
    (sched pre post : list event) (p : nat) (v : value) :
  p ∈ ps →
  NoDup (past ++ sched).*1 →
  seen_in_order past ps sched = pre ++ (p, Fulfils v) :: post →
  Forall (fun e : event => e.1 ∈ ps → ∃ r, e.2 = Rejects r) pre →
  thenable v = false →
  observe (run past (Some (VPromise <$> ps)) sched) = IsFulfilled v.
Proof.
  intros Hin Hnd Hseen Hpre Hv. unfold observe.
  by rewrite (run_first_fulfilment past ps sched pre post p v).
Qed.

Lemma some_first_success_witness :
  observe (run [(0, Rejects (VString "B"))]
               (Some (VPromise <$> [0; 1; 2]))
               [(2, Fulfils (VString "C")); (1, Fulfils (VString "A"))])
  = IsFulfilled (VString "C").
Proof.
  apply (some_first_success _ _ _ [(0, Rejects (VString "B"))]
           [(1, Fulfils (VString "A"))] 2).
  - apply list_elem_of_In. simpl. auto.
  - apply NoDup_ListNoDup. repeat constructor; simpl; intuition lia.
  - reflexivity.
  - repeat constructor. intros _. by eexists.
  - reflexivity.
Defined.

(** C1 as stated fails for promises that are settled before the call: P0
    was fulfilled with A, then P1 with C.  [Promise.some([P0, P1])] is
    fulfilled with C, the later of the two, and [Promise.some([P1, P0])]
    with A: the position in the input decides, not the time. *)
Lemma some_first_success_counterexample :
  observe (run [(0, Fulfils (VString "A")); (1, Fulfils (VString "C"))]
               (Some [VPromise 0; VPromise 1]) [])
  = IsFulfilled (VString "C") ∧
  observe (run [(0, Fulfils (VString "A")); (1, Fulfils (VString "C"))]
               (Some [VPromise 1; VPromise 0]) [])
  = IsFulfilled (VString "A").
Proof. split; reflexivity. Qed.

(** C2, as the code has it: with promises as input and nothing but
    rejections among them so far, [rejectionCount] is the number of handler
    pairs that have reacted; it equals [promises.length] exactly when every
    promise of the input has been rejected, and exactly then the result is
    rejected, with the reasons in the order in which the handlers reacted:
    first the promises rejected before the call, from the last element of
    the input to the first, then the others in settlement order.  Until
    then the result is pending. *)
Theorem some_all_fail (past : list event) (ps : list nat)
    (sched : list event) :
  ps ≠ [] →
  NoDup (past ++ sched).*1 →
  Forall (fun e : event => e.1 ∈ ps → ∃ r, e.2 = Rejects r) (past ++ sched) →
  let st := run past (Some (VPromise <$> ps)) sched in
  let rs := (fun j : event => carried j.2)
              <$> reactions past (reverse ps) sched in
  rejectionCount st = length rs ∧
  (rejectionCount st = length ps ↔ ∀ p, p ∈ ps → p ∈ (past ++ sched).*1) ∧
  observe st
  = if rejectionCount st =? length ps then IsRejected (VArray rs)
    else IsPending.
Proof.
  intros Hne Hnd Hrej st rs.
  destruct (run_rejected_state past ps sched Hne Hnd Hrej)
    as (Hr & Hc & _ & Hfull & Hres).
  fold st in Hr, Hc, Hres. subst rs. rewrite length_fmap, Hc.
  split; [done|]. split; [done|].
  unfold observe. rewrite Hres.
  destruct (length (reactions past (reverse ps) sched) =? length ps);
    [|done].
  cbn [deref]. by rewrite Hr.
Qed.

Lemma some_all_fail_witness :
  let st := run [(2, Rejects (VString "x"))]
                (Some (VPromise <$> [0; 1; 2]))
                [(0, Rejects (VString "y")); (1, Rejects (VString "z"))] in
  let rs := (fun j : event => carried j.2)
              <$> reactions [(2, Rejects (VString "x"))] (reverse [0; 1; 2])
                    [(0, Rejects (VString "y")); (1, Rejects (VString "z"))] in
  rejectionCount st = length rs ∧
  (rejectionCount st = length [0; 1; 2]
   ↔ ∀ p, p ∈ [0; 1; 2]
          → p ∈ ([(2, Rejects (VString "x"))]
                 ++ [(0, Rejects (VString "y")); (1, Rejects (VString "z"))]).*1) ∧
  observe st
  = if rejectionCount st =? length [0; 1; 2] then IsRejected (VArray rs)
    else IsPending.
Proof.
  apply (some_all_fail [(2, Rejects (VString "x"))] [0; 1; 2]).
  - discriminate.
  - apply NoDup_ListNoDup. repeat constructor; simpl; intuition lia.
  - repeat constructor; intros _; by eexists.
Defined.

(** C2 as stated fails for promises that are rejected before the call: P0
    was rejected with x, then P1 with y; [Promise.some([P0, P1])] is
    rejected with [y, x], the reverse of the settlement order. *)
Lemma some_all_fail_counterexample :
  observe (run [(0, Rejects (VString "x")); (1, Rejects (VString "y"))]
               (Some [VPromise 0; VPromise 1]) [])
  = IsRejected (VArray [VString "y"; VString "x"]) ∧
  observe (run [(0, Rejects (VString "x")); (1, Rejects (VString "y"))]
               (Some [VPromise 0; VPromise 1]) [])
  ≠ IsRejected (VArray [VString "x"; VString "y"]).
Proof. split; [reflexivity|discriminate]. Qed.

Example reactions_repeated :
  (fun j : event => carried j.2)
    <$> reactions [(5, Rejects (VString "a"))] (reverse [3; 5; 3])
          [(7, Fulfils VNull); (3, Rejects (VString "b"))]
  = [VString "a"; VString "b"; VString "b"].
Proof. reflexivity. Qed.

(** ** Promise.none on top *)

(** X6: [Promise.none] of an empty or absent input is rejected, with the
    empty array, from the moment it returns. *)
Theorem none_vacuous_rejection (past sched : list event) :
  Promise_none past (Some []) sched = IsRejected (VArray []) ∧
  Promise_none past None sched = IsRejected (VArray []).
Proof.
  unfold Promise_none, observe.
  split; rewrite run_result_settled; done.
Qed.

(** X7: [Promise.none] is fulfilled once every promise of the input has
    been rejected, with the array of reasons that [Promise.some]
    collected: first those of the promises rejected before the call, from
    the last element of the input to the first, then the others in
    settlement order; one entry per element of the input. *)
Theorem none_all_fail (past : list event) (ps : list nat)
    (sched : list event) :
  ps ≠ [] →
  NoDup (past ++ sched).*1 →
  Forall (fun e : event => e.1 ∈ ps → ∃ r, e.2 = Rejects r) (past ++ sched) →
  (∀ p, p ∈ ps → p ∈ (past ++ sched).*1) →
  Promise_none past (Some (VPromise <$> ps)) sched
  = IsFulfilled
      (VArray ((fun j : event => carried j.2)
                 <$> reactions past (reverse ps) sched)) ∧
  length (reactions past (reverse ps) sched) = length ps.
Proof.
  intros Hne Hnd Hrej Hall.
  destruct (run_rejected_state past ps sched Hne Hnd Hrej)
    as (Hr & _ & _ & Hfull & Hres).
  apply Hfull in Hall. split; [|done].
  unfold Promise_none, observe. rewrite Hres, Hall, Nat.eqb_refl.
  cbn. by rewrite Hr.
Qed.

Lemma none_all_fail_witness :
  Promise_none [(0, Rejects (VString "x")); (1, Rejects (VString "y"))]
               (Some (VPromise <$> [0; 1; 2])) [(2, Rejects (VString "z"))]
  = IsFulfilled
      (VArray ((fun j : event => carried j.2)
                 <$> reactions
                       [(0, Rejects (VString "x")); (1, Rejects (VString "y"))]
                       (reverse [0; 1; 2]) [(2, Rejects (VString "z"))])) ∧
  length (reactions [(0, Rejects (VString "x")); (1, Rejects (VString "y"))]
                    (reverse [0; 1; 2]) [(2, Rejects (VString "z"))])
  = length [0; 1; 2].
Proof.
  apply none_all_fail.
  - discriminate.
  - apply NoDup_ListNoDup. repeat constructor; simpl; intuition lia.
  - repeat constructor; cbn; intros _; by eexists.
  - intros p Hp. apply list_elem_of_In in Hp. apply list_elem_of_In.
    simpl in *. intuition lia.
Defined.

Example none_all_fail_order :
  Promise_none [(0, Rejects (VString "x")); (1, Rejects (VString "y"))]
               (Some (VPromise <$> [0; 1; 2])) [(2, Rejects (VString "z"))]
  = IsFulfilled (VArray [VString "y"; VString "x"; VString "z"]).
Proof. reflexivity. Qed.

(** X8: [Promise.none] is rejected with the value of the first fulfilment
    that [Promise.some] gets to see: the settlements from before the call
    first, from the last element of the input to the first, then the later
    ones in the order in which they happen. *)
Theorem none_first_success (past : list event) (ps : list nat)
    (sched pre post : list event) (p : nat) (v : value) :
  p ∈ ps →
  NoDup (past ++ sched).*1 →
  seen_in_order past ps sched = pre ++ (p, Fulfils v) :: post →
  Forall (fun e : event => e.1 ∈ ps → ∃ r, e.2 = Rejects r) pre →
  thenable v = false →
  Promise_none past (Some (VPromise <$> ps)) sched = IsRejected v.
Proof.
  intros Hin Hnd Hseen Hpre Hv. unfold Promise_none, observe.
  by rewrite (run_first_fulfilment past ps sched pre post p v).
Qed.

Lemma none_first_success_witness :
  Promise_none [(0, Fulfils (VString "A")); (1, Fulfils (VString "C"))]
               (Some (VPromise <$> [0; 1])) []
  = IsRejected (VString "C").
Proof.
  apply (none_first_success _ _ _ [] [(0, Fulfils (VString "A"))] 1).
  - apply list_elem_of_In. simpl. auto.
  - apply NoDup_ListNoDup. repeat constructor; simpl; intuition lia.
  - reflexivity.
  - constructor.
  - reflexivity.
Defined.

(** ** always *)



(** X9: [always] does not keep the settlement of the promise it is called
    on: when [fn] returns normally (with something that is not a promise or
    other thenable), the promise returned by [always] is fulfilled with what
    [fn] returned, on a rejected promise as well as on a fulfilled one. *)
Theorem always_replaces_settlement (fn : callback) (x w : value) :
  fn x = Normal w → thenable w = false →
  derived (always (IsRejected x) (Some fn)) = IsFulfilled w ∧
  derived (always (IsFulfilled x) (Some fn)) = IsFulfilled w.
Proof.
  intros Hfn Hw. unfold always, then_, settle_with. cbn. by rewrite Hfn, Hw.
Qed.

Lemma always_replaces_settlement_witness :
  derived (always (IsRejected (VString "boom"))
                  (Some (fun _ => Normal (VNumber (NFinite 1)))))
  = IsFulfilled (VNumber (NFinite 1)) ∧
  derived (always (IsFulfilled (VString "boom"))
                  (Some (fun _ => Normal (VNumber (NFinite 1)))))
  = IsFulfilled (VNumber (NFinite 1)).
Proof.
  apply (always_replaces_settlement
           (fun _ => Normal (VNumber (NFinite 1))) (VString "boom"));
    reflexivity.
Defined.

(** ** try *)

Import Try.

Lemma typeof_lowercase (v : value) :
  typeof v ≠ "Function" ∧ typeof v ≠ "Number".
Proof. by destruct v as [| | | | | | | |? []]. Qed.

Lemma typeof_not_Function (v : value) :
  String.eqb (typeof v) "Function" = false.
Proof. by destruct v as [| | | | | | | |? []]. Qed.

Lemma typeof_not_Number (v : value) :
  String.eqb (typeof v) "Number" = false.
Proof. by destruct v as [| | | | | | | |? []]. Qed.

Section TryProperties.

(** Whatever the host's [isFinite] answers. *)
Variable isFinite : value → bool.

(** The timeout promise is never built: the factory ends in an exception
    on every path. *)
Lemma timeoutPromiseFactory_throws (e : env) :
  ∃ err, timeoutPromiseFactory isFinite e = Throws err.
Proof.
  unfold timeoutPromiseFactory.
  destruct (if negb (length (times e) =? 0) then time_pop e else Returns e)
    as [e1|err]; [|by eexists].
  rewrite typeof_not_Number. cbn. by eexists.
Qed.

(** Past the first [return] the call would end in an exception before any
    race is set up. *)
Lemma attempt_throws (fn : value) (e : env) :
  ∃ err, attempt isFinite fn e = Throws err.
Proof.
  unfold attempt. destruct (timeoutPromiseFactory_throws e) as [err ->].
  by eexists.
Qed.

(** C9, as the code has it: whatever [fn] is, the call leaves through the
    first [return]; [fn] is not called, no attempt is counted and [time] is
    untouched.  A [fn] that is a promise comes back as it is, in whatever
    state it is in; a [fn] that is another thenable comes back as a fresh
    pending promise that adopts it; any other [fn] comes back wrapped in a
    fresh promise fulfilled with [fn]. *)
Theorem try_returns_early (h : list cell) (fn time : value)
    (attempts : option nat) :
  typeof fn ≠ "Function" ∧
  ∃ r e,
    Promise_try isFinite h fn time attempts = Returns (r, e) ∧
    invocations e = 0 ∧ attemptNum e = 0 ∧ Try.reasons e = [] ∧
    Try.time e = time ∧ times e = concat_time time ∧
    match fn with
    | VPromise p => r = fn ∧ heap e = h
    | VThenable _ _ =>
        r = VPromise (length h) ∧ heap e = h ++ [Adopting fn] ∧
        state_of e r = Some (Adopting fn)
    | _ => r = VPromise (length h) ∧ heap e = h ++ [Settled (Fulfils fn)] ∧
           state_of e r = Some (Settled (Fulfils fn))
    end.
Proof.
  split; [apply typeof_lowercase|].
  unfold Promise_try. rewrite typeof_not_Function. cbn [negb].
  destruct fn; cbn; eexists _, _; (split; [reflexivity|]);
    repeat split; try done; by apply list_lookup_middle.
Qed.

(** C3, on the code: with a function as [fn] and [attempts = 2] the call
    returns a promise fulfilled with the function itself; the function was
    never called and nothing was rejected. *)
Theorem try_always_failing_factory (f : nat) :
  ∃ e,
    Promise_try isFinite [] (VFunction f) VUndefined (Some 2)
    = Returns (VPromise 0, e) ∧
    state_of e (VPromise 0) = Some (Settled (Fulfils (VFunction f))) ∧
    invocations e = 0 ∧ Try.reasons e = [] ∧ maxAttempts e = 2.
Proof. eexists. cbn. repeat split. Qed.

(** C4, on the code: with a function as [fn], a 100 ms timeout and
    [attempts = 1] the call returns a promise fulfilled with the function
    itself; no timeout promise exists in the store, and the timeout factory
    could not have produced one. *)
Theorem try_slow_factory_with_timeout (f : nat) :
  (∃ e,
    Promise_try isFinite [] (VFunction f) (VNumber (NFinite 100)) (Some 1)
    = Returns (VPromise 0, e) ∧
    heap e = [Settled (Fulfils (VFunction f))] ∧
    invocations e = 0 ∧ attemptNum e = 0) ∧
  ∀ e : env, ∃ err, timeoutPromiseFactory isFinite e = Throws err.
Proof.
  split; [eexists; cbn; repeat split|apply timeoutPromiseFactory_throws].
Qed.

Example try_with_time_array :
  ∃ e,
    Promise_try isFinite [] (VFunction 0)
                (VArray [VNumber (NFinite 100); VNumber (NFinite 200)]) (Some 3)
    = Returns (VPromise 0, e) ∧
    Try.time e = VArray [VNumber (NFinite 100); VNumber (NFinite 200)] ∧
    timeToWait e = VUndefined.
Proof. eexists. cbn. repeat split. Qed.

Example try_with_thenable :
  ∃ e,
    Promise_try isFinite [] (VThenable 3 true) VUndefined None
    = Returns (VPromise 0, e) ∧
    heap e = [Adopting (VThenable 3 true)].
Proof. eexists. cbn. repeat split. Qed.

(** X10: [attempt] never gets as far as the race: it ends in a [TypeError],
    raised by the evaluation of [time.pop()] when [time] is not an array,
    and by [new Promise()] otherwise. *)
Theorem attempt_never_races (fn : value) (e : env) :
  attempt isFinite fn e
  = Throws (TypeError
              match Try.time e with
              | VArray _ => NewPromise
              | _ => if length (times e) =? 0 then NewPromise else TimePop
              end).
Proof.
  unfold attempt, timeoutPromiseFactory, time_pop.
  destruct (length (times e) =? 0); cbn [negb].
  - rewrite typeof_not_Number. cbn. by destruct (Try.time e).
  - destruct (Try.time e); try done;
      cbn [timeToWait]; by rewrite typeof_not_Number.
Qed.

(** X11: the handler of the [catch]: while retries are left it ends in the
    exception of [attempt]; on the last attempt it returns a new promise
    rejected with all reasons so far, the latest last, and has counted the
    attempt. *)
Theorem attempt_catch_outcome (fn : value) (e : env) (reason : value) :
  if attemptNum e <? maxAttempts e
  then ∃ err, attempt_catch isFinite fn e reason = Throws err
  else ∃ e',
      attempt_catch isFinite fn e reason
      = Returns (VPromise (length (heap e)), e') ∧
      state_of e' (VPromise (length (heap e)))
      = Some (Settled (Rejects (VArray (Try.reasons e ++ [reason])))) ∧
      heap e' = heap e ++ [Settled (Rejects (VArray (Try.reasons e ++ [reason])))] ∧
      attemptNum e' = S (attemptNum e).
Proof.
  unfold attempt_catch. destruct (attemptNum e <? maxAttempts e).
  - match goal with
    | |- context [attempt isFinite fn ?e1] =>
        destruct (attempt_throws fn e1) as [err ->]
    end.
    by eexists.
  - eexists. split; [reflexivity|]. cbn. repeat split.
    by apply list_lookup_middle.
Qed.

End TryProperties.

(** C9 as stated fails for a promise argument: [Promise.try] of a promise
    that is already rejected returns that very promise, rejected.  (The
    answer of [isFinite] plays no part.) *)
Lemma try_rejected_promise_counterexample :
  ∃ e,
    Promise_try (fun _ => false) [Settled (Rejects (VString "e"))] (VPromise 0)
                VUndefined None
    = Returns (VPromise 0, e) ∧
    state_of e (VPromise 0) = Some (Settled (Rejects (VString "e"))) ∧
    state_of e (VPromise 0) ≠ Some (Settled (Fulfils (VPromise 0))).
Proof. eexists. cbn. repeat split. discriminate. Qed.
